(** * SpringEmbeddersGPUAlgorithm: a shallow embedding of src/js/SpringEmbeddersGPUAlgorithm.js

    JavaScript numbers are IEEE binary64; node coordinates and the simulation
    parameters are modelled as Rocq's primitive [float].  The integer quantities
    the encoder computes with (indices, sizes, the adjacency cursor) stay far
    below 2^53 and are exact in binary64, so they are modelled as [Z], wrapped in
    [num] to keep the non-finite results of [Math.floor(k / 0)] and [k % 0].
    The gpu.js kernel is modelled as its CPU backend runs it: the kernel body
    computes in binary64, and each returned [[x', y']] is stored in a
    [Float32Array], so both coordinates are rounded to binary32.  gpu.js
    compiles a kernel at its first run, with the constants of that moment;
    later changes of [kernel.constants] do not reach the compiled kernel. *)

From Stdlib Require Import ZArith Floats.
From stdpp Require Import base list.

Local Open Scope Z_scope.
#[local] Set Warnings "-inexact-float".

(** ** JavaScript values *)

(** An integer-valued JS number, or one of the non-finite results of [/] and [%]. *)
Inductive num := Fin (z : Z) | NaN | PosInf | NegInf.

(** [Math.floor(a / b)] on integers. *)
Definition js_floor_div (a b : Z) : num :=
  if b =? 0 then (if a =? 0 then NaN else if 0 <? a then PosInf else NegInf)
  else Fin (a / b).

(** [a % b] on integers: JS's remainder takes the sign of the dividend. *)
Definition js_mod (a b : Z) : num :=
  if b =? 0 then NaN else Fin (Z.rem a b).

(** JS truthiness of a number: [0], [-0] and [NaN] are falsy. *)
Definition truthy (f : float) : bool :=
  negb (PrimFloat.eqb f 0%float) && PrimFloat.eqb f f.

(** [v || d] where [v] is a property that may be absent ([undefined]). *)
Definition js_or (v : option float) (d : float) : float :=
  match v with
  | Some f => if truthy f then f else d
  | None => d
  end.

(** Property access [m[k]] with a number key: only a non-negative finite
    integer denotes an element; anything else yields [undefined]. *)
Definition js_index (k : num) : option nat :=
  match k with
  | Fin z => if 0 <=? z then Some (Z.to_nat z) else None
  | _ => None
  end.

(** ** Matrices: JS arrays of rows *)

Abbreviation matrix A := (list (list A)).

(** [matrix[r][c]]: [None] when the lookup yields [undefined]. *)
Definition get2 {A} (m : matrix A) (r c : nat) : option A :=
  m !! r ≫= fun row => row !! c.

(** [matrix[r][c] = v].  A row that is [undefined] raises a TypeError ([None]).
    A column past the end of an existing row would grow the row in JS; the
    encoder never writes there (see [encode_ok]), and the model reports it as
    [None]. *)
Definition set2 {A} (m : matrix A) (r c : num) (v : A) : option (matrix A) :=
  ir ← js_index r;
  ic ← js_index c;
  row ← m !! ir;
  if decide (ic < length row)%nat then Some (<[ir := <[ic := v]> row]> m) else None.

(** [_create3dMatrix(rows, columns, depth, defaultValue)]: every cell is a
    fresh array of [depth] copies of [defaultValue], here given as [fill]. *)
Definition create3dMatrix {A} (rows columns : Z) (fill : A) : matrix A :=
  replicate (Z.to_nat rows) (replicate (Z.to_nat columns) fill).

(** [_indexToMatrixCoordinates(index, rows, columns)] *)
Definition indexToMatrixCoordinates (index rows columns : Z) : num * num :=
  (js_floor_div index rows, js_mod index columns).

(** ** Graph nodes: objects on a heap *)

(** A node object is reached through a reference; [graph.nodes] and
    [node.neighbours] hold references, and [indexOf] compares them with [===]. *)
Definition ref := nat.

Record Node := mkNode {
  x : float;
  y : float;
  isFixed : bool;
  neighbours : list ref
}.

Definition heap := ref -> Node.

Definition hupd (h : heap) (r : ref) (n : Node) : heap :=
  fun r' => if Nat.eqb r' r then n else h r'.

Definition set_xy (n : Node) (x' y' : float) : Node :=
  mkNode x' y' (isFixed n) (neighbours n).

(** [nodes.indexOf(r)] *)
Fixpoint indexOf (nodes : list ref) (r : ref) : Z :=
  match nodes with
  | [] => -1
  | r' :: rest => if Nat.eqb r' r then 0 else
                  let i := indexOf rest r in if i =? -1 then -1 else i + 1
  end.

(** ** The engine object *)

Record Engine := mkEngine {
  graph_nodes : list ref;                        (* this._graph.nodes *)
  width : float;
  height : float;
  speed : float;
  springRestLength : float;
  springDampening : float;
  charge : float;
  positionsMatrix : matrix (float * float);
  adjacencyMatrix : matrix (num * num);
  nodesMatrix : matrix (num * num * num);
  kernel_size : Z;                               (* setOutput([outputSize, outputSize]) *)
  kernel_speed : float;                          (* this._kernel.constants.speed *)
  kernel_built : option float                    (* the constant the kernel was compiled
                                                    with at its first run, if it has run *)
}.

(** The argument of [setProperties]: each option may be absent. *)
Record Properties := mkProperties {
  p_speed : option float;
  p_springDampening : option float;
  p_springRestLength : option float;
  p_charge : option float
}.

Definition setProperties (e : Engine) (p : Properties) : Engine :=
  mkEngine (graph_nodes e) (width e) (height e)
    (js_or (p_speed p) (speed e))
    (js_or (p_springRestLength p) (springRestLength e))
    (js_or (p_springDampening p) (springDampening e))
    (js_or (p_charge p) (charge e))
    (positionsMatrix e) (adjacencyMatrix e) (nodesMatrix e)
    (kernel_size e) (kernel_speed e) (kernel_built e).

(** ** [_createGraphMatrices] *)

Definition posFill : float * float := ((-1)%float, (-1)%float).
Definition nodeFill : num * num * num := (Fin (-1), Fin (-1), Fin (-1)).
Definition adjFill : num * num := (Fin (-1), Fin (-1)).

Definition degree (h : heap) (r : ref) : nat := length (neighbours (h r)).

(** [graph.nodes.map(node => node.neighbours.length).reduce((t, c) => t + c, 0)] *)
Definition totalNumberOfEdges (h : heap) (nodes : list ref) : Z :=
  fold_left Z.add (map (fun r => Z.of_nat (degree h r)) nodes) 0.

(** [Math.ceil(Math.sqrt(n))] on the (small) integers the encoder sees. *)
Definition nodesMatrixSize (nodes : list ref) : Z := Z.sqrt_up (Z.of_nat (length nodes)).
Definition adjacencyMatrixSize (h : heap) (nodes : list ref) : Z :=
  Z.sqrt_up (totalNumberOfEdges h nodes).

(** The inner [currentNode.neighbours.forEach(...)]: one adjacency cell per
    neighbour, at the cursor, which then advances. *)
Fixpoint storeNeighbours (nodes : list ref) (P A : Z) (nbrs : list ref)
    (cursor : Z) (adjM : matrix (num * num)) : option (Z * matrix (num * num)) :=
  match nbrs with
  | [] => Some (cursor, adjM)
  | neighbour :: rest =>
      let '(adjX, adjY) := indexToMatrixCoordinates cursor A A in
      let neighbourIndex := indexOf nodes neighbour in
      let neighbourCoords := indexToMatrixCoordinates neighbourIndex P P in
      adjM' ← set2 adjM adjX adjY neighbourCoords;
      storeNeighbours nodes P A rest (cursor + 1) adjM'
  end.

Record EncState := mkEncState {
  enc_cursor : Z;                         (* adjMatrixNextFreeSpotIndex *)
  enc_nodes : matrix (num * num * num);
  enc_adj : matrix (num * num);
  enc_pos : matrix (float * float)
}.

(** The outer [for (let i = 0; i < graph.nodes.length; i++)] loop, from index
    [i] on, [todo] being the nodes [graph.nodes[i..]]. *)
Fixpoint encodeFrom (h : heap) (nodes : list ref) (P A : Z) (i : Z)
    (todo : list ref) (s : EncState) : option EncState :=
  match todo with
  | [] => Some s
  | r :: rest =>
      let currentNode := h r in
      let '(adjX, adjY) := indexToMatrixCoordinates (enc_cursor s) A A in
      let '(nodeX, nodeY) := indexToMatrixCoordinates i P P in
      nM ← set2 (enc_nodes s) nodeX nodeY
              (adjX, adjY, Fin (Z.of_nat (length (neighbours currentNode))));
      pM ← set2 (enc_pos s) nodeX nodeY (x currentNode, y currentNode);
      '(cur, aM) ← storeNeighbours nodes P A (neighbours currentNode)
                      (enc_cursor s) (enc_adj s);
      encodeFrom h nodes P A (i + 1) rest (mkEncState cur nM aM pM)
  end.

(** [_createGraphMatrices()]: the position, adjacency and node matrices. *)
Definition createGraphMatrices (h : heap) (nodes : list ref)
    : option (matrix (float * float) * matrix (num * num) * matrix (num * num * num)) :=
  let P := nodesMatrixSize nodes in
  let A := adjacencyMatrixSize h nodes in
  let nodesMatrix0 := create3dMatrix P P nodeFill in
  let adjacencyMatrix0 := create3dMatrix A A adjFill in
  let positionsMatrix0 := create3dMatrix P P posFill in
  s ← encodeFrom h nodes P A 0 nodes
        (mkEncState 0 nodesMatrix0 adjacencyMatrix0 positionsMatrix0);
  Some (enc_pos s, enc_adj s, enc_nodes s).

(** ** The kernel and [computeNextPositions] *)

(** The outcome of a method: it returns normally, or throws (a TypeError)
    leaving the state it had reached. *)
Inductive outcome (S : Type) := Done (s : S) | Throws (s : S).
Arguments Done {S} s.
Arguments Throws {S} s.

Fixpoint foldO {A B} (f : B -> A -> outcome B) (l : list A) (b : B) : outcome B :=
  match l with
  | [] => Done b
  | a :: l' => match f b a with Done b' => foldO f l' b' | Throws b' => Throws b' end
  end.

(** Storing a number into a [Float32Array]: rounding to the nearest binary32
    value, ties to even ([Math.fround]); NaN, the infinities and the zeros are
    kept, and values beyond the binary32 range become infinite. *)
Definition fround (f : float) : float :=
  match Prim2SF f with
  | S754_finite s m e => SF2Prim (binary_round 24 128 s m e)
  | _ => f
  end.

(** The kernel body for thread [(row, col)]:
    [const [x, y] = positions[row][col]; return [x + this.constants.speed, y + 0.1];]
    the returned pair being stored as a [Float32Array]. *)
Definition kernelCell (c : float) (positions : matrix (float * float))
    (row col : nat) : option (float * float) :=
  '(px, py) ← get2 positions row col;
  Some (fround (px + c)%float, fround (py + 0.1)%float).

(** The compiled kernel run over its [size x size] output, [output[row][col]] being
    computed by the thread with [this.thread.y = row], [this.thread.x = col]. *)
Definition runKernel (size : Z) (c : float) (positions : matrix (float * float))
    : option (matrix (float * float)) :=
  mapM (fun row => mapM (fun col => kernelCell c positions row col)
                        (seq 0 (Z.to_nat size)))
       (seq 0 (Z.to_nat size)).

(** One iteration of the write-back loop of [computeNextPositions]. *)
Definition writeBackCell (nodes : list ref) (positions : matrix (float * float))
    (rows : nat) (h : heap) (row col : nat) : outcome heap :=
  let nodeIndex := (row * rows + col)%nat in
  if decide (nodeIndex < length nodes)%nat then
    match nodes !! nodeIndex, get2 positions row col with
    | Some node, Some (px, py) => Done (hupd h node (set_xy (h node) px py))
    | _, _ => Throws h
    end
  else Done h.

(** The write-back loop: [rows = positions.length],
    [columns = positions[0].length] (a TypeError when [positions] is empty),
    then every cell with [nodeIndex = row * rows + col < nodes.length] is copied
    to [nodes[nodeIndex]]. *)
Definition writeBack (nodes : list ref) (positions : matrix (float * float))
    (h : heap) : outcome heap :=
  let rows := length positions in
  match positions !! 0%nat with
  | None => Throws h
  | Some row0 =>
      let columns := length row0 in
      foldO (fun h row =>
               foldO (fun h col => writeBackCell nodes positions rows h row col)
                     (seq 0 columns) h)
            (seq 0 rows) h
  end.

Definition with_positions (e : Engine) (pm : matrix (float * float)) : Engine :=
  mkEngine (graph_nodes e) (width e) (height e) (speed e) (springRestLength e)
    (springDampening e) (charge e) pm (adjacencyMatrix e) (nodesMatrix e)
    (kernel_size e) (kernel_speed e) (kernel_built e).

Definition with_kernel_speed (e : Engine) (c : float) : Engine :=
  mkEngine (graph_nodes e) (width e) (height e) (speed e) (springRestLength e)
    (springDampening e) (charge e) (positionsMatrix e) (adjacencyMatrix e)
    (nodesMatrix e) (kernel_size e) c (kernel_built e).

Definition with_kernel_built (e : Engine) (b : option float) : Engine :=
  mkEngine (graph_nodes e) (width e) (height e) (speed e) (springRestLength e)
    (springDampening e) (charge e) (positionsMatrix e) (adjacencyMatrix e)
    (nodesMatrix e) (kernel_size e) (kernel_speed e) b.

(** [computeNextPositions()]: [constants.speed += 3], then
    [this._kernel(this._positionsMatrix)].  At its first run gpu.js compiles
    the kernel, refusing an output of size 0, and fixes the constant to the
    current [constants.speed]; a compiled kernel keeps its constant. *)
Definition computeNextPositions (h : heap) (e : Engine) : outcome (heap * Engine) :=
  let e1 := with_kernel_speed e (kernel_speed e + 3)%float in
  if kernel_size e1 =? 0 then Throws (h, e1) else
  let c := match kernel_built e1 with Some c => c | None => kernel_speed e1 end in
  let e2 := with_kernel_built e1 (Some c) in
  match runKernel (kernel_size e2) c (positionsMatrix e2) with
  | None => Throws (h, e2)
  | Some pm =>
      let e3 := with_positions e2 pm in
      match writeBack (graph_nodes e3) pm h with
      | Done h' => Done (h', e3)
      | Throws h' => Throws (h', e3)
      end
  end.

(** [n] successive calls of [computeNextPositions] (a throw stops the run). *)
Fixpoint ticks (n : nat) (h : heap) (e : Engine) : outcome (heap * Engine) :=
  match n with
  | O => Done (h, e)
  | S n' => match computeNextPositions h e with
            | Done (h', e') => ticks n' h' e'
            | Throws s => Throws s
            end
  end.

(** ** [setGraph] and the constructor *)

(** The [forEach] of [setGraph]; [rand k] is the value of the [k]-th call of
    [Math.random()]. *)
Fixpoint randomizeNodes (w hg : float) (rand : nat -> float) (k : nat)
    (rs : list ref) (h : heap) : heap :=
  match rs with
  | [] => h
  | r :: rest =>
      let nx := (w / 2 + (100 * rand k) - 50)%float in
      let ny := (hg / 2 + (100 * rand (S k) - 50))%float in
      randomizeNodes w hg rand (S (S k)) rest
        (hupd h r (mkNode nx ny false (neighbours (h r))))
  end.

(** [_setUpGPU()]: [_createGraphMatrices()] then [_createKernel()], which sizes
    the kernel by [this._nodesMatrix.length] and sets its constant to [3]. *)
Definition setUpGPU (h : heap) (e : Engine) : outcome (heap * Engine) :=
  match createGraphMatrices h (graph_nodes e) with
  | None => Throws (h, e)
  | Some (pm, am, nm) =>
      Done (h, mkEngine (graph_nodes e) (width e) (height e) (speed e)
                 (springRestLength e) (springDampening e) (charge e) pm am nm
                 (Z.of_nat (length nm)) 3%float None)
  end.

(** [setGraph(graph)] *)
Definition setGraph (h : heap) (e : Engine) (nodes : list ref) (rand : nat -> float)
    : outcome (heap * Engine) :=
  let e1 := mkEngine nodes (width e) (height e) (speed e) (springRestLength e)
              (springDampening e) (charge e) (positionsMatrix e) (adjacencyMatrix e)
              (nodesMatrix e) (kernel_size e) (kernel_speed e) (kernel_built e) in
  setUpGPU (randomizeNodes (width e) (height e) rand 0 nodes h) e1.

(** [new SpringEmbeddersGPUAlgorithm(graph, width, height)]; the kernel does
    not exist before [setGraph] ([kernel_size] 0, constant 0). *)
Definition newEngine (h : heap) (nodes : list ref) (w hg : float) (rand : nat -> float)
    : outcome (heap * Engine) :=
  setGraph h (mkEngine [] w hg 0.01%float 10%float (1 / 10)%float (150 * 150)%float
                [] [] [] 0 0%float None) nodes rand.

(** ** The force law of the specification (section 4.2)

    Not in the source: the physical step the specification describes, with a
    minimum distance [eps], written to be compared with [computeNextPositions]. *)
Definition spec_next_position (eps : float) (e : Engine) (h : heap)
    (nodes : list ref) (r : ref) : float * float :=
  let n := h r in
  if isFixed n then (x n, y n) else
  let dist (o : Node) :=
    let dx := (x n - x o)%float in
    let dy := (y n - y o)%float in
    let d := PrimFloat.sqrt (dx * dx + dy * dy)%float in
    if PrimFloat.ltb d eps then eps else d in
  let repulsion (o : ref) :=
    if Nat.eqb o r then (0%float, 0%float) else
    let d := dist (h o) in
    let mag := (charge e / (d * d))%float in
    ((mag * (x n - x (h o)) / d)%float, (mag * (y n - y (h o)) / d)%float) in
  let attraction (o : ref) :=
    let d := dist (h o) in
    let mag := ((d - springRestLength e) * springDampening e)%float in
    ((mag * (x (h o) - x n) / d)%float, (mag * (y (h o) - y n) / d)%float) in
  let addv (p q : float * float) := ((fst p + fst q)%float, (snd p + snd q)%float) in
  let F := fold_left addv (map repulsion nodes ++ map attraction (neighbours n))
             (0%float, 0%float) in
  ((x n + speed e * fst F)%float, (y n + speed e * snd F)%float).

(** ** Views of the encoding used in the statements *)

(** [m] is an [n x n] matrix whose cell [(r, c)] holds [f (r * n + c)]: the
    row-major reading of the matrix is [f 0, f 1, ...]. *)
Definition grid_is {A} (m : matrix A) (n : nat) (f : nat -> A) : Prop :=
  length m = n /\
  forall r, (r < n)%nat -> exists row, m !! r = Some row /\ length row = n /\
    forall c, (c < n)%nat -> row !! c = Some (f (r * n + c)%nat).

(** The node-matrix cells the encoder writes for the nodes [rs], the first of
    which gets adjacency cursor [base]. *)
Fixpoint nodeCells (h : heap) (A : Z) (base : nat) (rs : list ref)
    : list (num * num * num) :=
  match rs with
  | [] => []
  | r :: rest =>
      (indexToMatrixCoordinates (Z.of_nat base) A A, Fin (Z.of_nat (degree h r)))
        :: nodeCells h A (base + degree h r) rest
  end.

(** The adjacency-matrix cells written for the nodes [rs], in cursor order:
    the coordinates of each neighbour of each node. *)
Definition linksOf (h : heap) (nodes : list ref) (P : Z) (rs : list ref)
    : list (num * num) :=
  flat_map (fun r => map (fun nb => indexToMatrixCoordinates (indexOf nodes nb) P P)
                         (neighbours (h r))) rs.

(** The position cells written for the nodes [rs]. *)
Definition posOf (h : heap) (rs : list ref) : list (float * float) :=
  map (fun r => (x (h r), y (h r))) rs.

(** The number of neighbour links of the nodes [rs]: the cursor value after them. *)
Fixpoint degreeSum (h : heap) (rs : list ref) : nat :=
  match rs with
  | [] => 0
  | r :: rest => degree h r + degreeSum h rest
  end.

(** [degree] sequential row-major reads of the adjacency matrix (side [a])
    starting at [(adjRow, adjCol)]. *)
Definition readRun (am : matrix (num * num)) (a : nat) (adjRow adjCol : num) (deg : nat)
    : list (option (num * num)) :=
  map (fun t =>
         match js_index adjRow, js_index adjCol with
         | Some ar, Some ac =>
             let k := (ar * a + ac + t)%nat in get2 am (k / a)%nat (k mod a)%nat
         | _, _ => None
         end) (seq 0 deg).

(** An absent or falsy option of [setProperties]. *)
Definition falsy_opt (v : option float) : bool :=
  match v with None => true | Some f => negb (truthy f) end.


Definition outcome_map {S T} (f : S -> T) (o : outcome S) : outcome T :=
  match o with Done s => Done (f s) | Throws s => Throws (f s) end.




(** [k + 3 + ... + 3] with [n] additions, each rounded to binary64: the value
    of [constants.speed] after [n] calls from [k]. *)
Fixpoint add3 (n : nat) (k : float) : float :=
  match n with O => k | S n' => add3 n' (k + 3)%float end.

(** ** The remaining members of the class *)

(** A cell of [_create3dMatrix]: the default value itself ([depth == 1]) or a
    fresh array [Array(depth).fill(defaultValue)] ([depth > 1]). *)
Inductive jsval (A : Type) := JScalar (a : A) | JArray (l : list A).
Arguments JScalar {A} a.
Arguments JArray {A} l.

(** [_create3dMatrix(rows, columns, depth, defaultValue)] with all four
    arguments, on integer [rows], [columns] and [depth]: each of the [rows]
    rows gets, for each of the [columns] columns, one cell when [depth == 1] or
    [depth > 1], and nothing otherwise.  ([create3dMatrix] above is the same
    matrix with the cell given directly.) *)
Definition create3dMatrix_depth {A} (rows columns depth : Z) (defaultValue : A)
    : matrix (jsval A) :=
  map (fun _ =>
         flat_map (fun _ =>
                     if depth =? 1 then [JScalar defaultValue]
                     else if 1 <? depth then [JArray (replicate (Z.to_nat depth) defaultValue)]
                     else [])
                  (seq 0 (Z.to_nat columns)))
      (seq 0 (Z.to_nat rows)).

(** [_clamp(val, min, max)]: [val < min ? min : (val > max ? max : val)]. *)
Definition clamp (val min max : float) : float :=
  if PrimFloat.ltb val min then min else if PrimFloat.ltb max val then max else val.

(** [onCanvasSizeChanged(width, height)] *)
Definition onCanvasSizeChanged (e : Engine) (w hg : float) : Engine :=
  mkEngine (graph_nodes e) w hg (speed e) (springRestLength e) (springDampening e)
    (charge e) (positionsMatrix e) (adjacencyMatrix e) (nodesMatrix e)
    (kernel_size e) (kernel_speed e) (kernel_built e).

(** The static field [SpringEmbeddersGPUAlgorithm._gpu] ([None] for [null]);
    [new GPU()] returns a fresh object, numbered by [gpus_made]. *)
Record GpuStatic := mkGpuStatic {
  static_gpu : option nat;
  gpus_made : nat
}.

(** [SpringEmbeddersGPUAlgorithm._getGpuInstance()] *)
Definition getGpuInstance (s : GpuStatic) : nat * GpuStatic :=
  match static_gpu s with
  | Some g => (g, s)
  | None => let g := gpus_made s in (g, mkGpuStatic (Some g) (S (gpus_made s)))
  end.

(** [n] successive calls of [_getGpuInstance()] and the instances they return. *)
Fixpoint getGpuInstance_calls (n : nat) (s : GpuStatic) : list nat * GpuStatic :=
  match n with
  | O => ([], s)
  | S n' => let '(g, s1) := getGpuInstance s in
            let '(gs, s2) := getGpuInstance_calls n' s1 in (g :: gs, s2)
  end.

(** ** Test graphs *)

(** A triangle 0-1-2 (node 2 fixed) plus an isolated node 3. *)
Definition tri_heap : heap := fun r =>
  match r with
  | 0%nat => mkNode 1 2 false [1%nat; 2%nat]
  | 1%nat => mkNode 3 4 false [0%nat; 2%nat]
  | 2%nat => mkNode 5 6 true [0%nat; 1%nat]
  | _ => mkNode 7 8 false []
  end.

Definition tri_nodes : list ref := [0%nat; 1%nat; 2%nat; 3%nat].

Definition tri_engine : Engine :=
  match createGraphMatrices tri_heap tri_nodes with
  | Some (pm, am, nm) =>
      mkEngine tri_nodes 800 600 0.01 10 (1 / 10) (150 * 150) pm am nm
        (Z.of_nat (length nm)) 3 None
  | None => mkEngine tri_nodes 800 600 0.01 10 (1 / 10) (150 * 150) [] [] [] 0 3 None
  end.

(** Node 0 links to node 1 and to the object 5, which is not in the graph. *)
Definition dangle_heap : heap := fun r =>
  match r with
  | 0%nat => mkNode 1 2 false [1%nat; 5%nat]
  | 1%nat => mkNode 3 4 false [0%nat]
  | _ => mkNode 0 0 false []
  end.

(** A graph with a single node and no edge. *)
Definition one_heap : heap := fun _ => mkNode 0 0 false [].


(** Rewrites the left-hand side of an equation to its value, computed by the
    virtual machine. *)
Ltac eval_lhs :=
  match goal with
  | |- ?l = _ => let v := eval vm_compute in l in
                 refine (eq_trans (y := v) _ _); [vm_compute; reflexivity|]
  end.

(** * Lemmas on the matrices *)

Lemma grid_create {A} (n : nat) (fill : A) :
  grid_is (create3dMatrix (Z.of_nat n) (Z.of_nat n) fill) n (fun _ => fill).
Proof.
  unfold create3dMatrix, grid_is. rewrite Nat2Z.id.
  split; [apply length_replicate|].
  intros r Hr. exists (replicate n fill).
  split; [by apply lookup_replicate_2|]. split; [apply length_replicate|].
  intros c Hc. by apply lookup_replicate_2.
Qed.

Lemma grid_ext {A} (m : matrix A) n f g :
  grid_is m n f -> (forall j, f j = g j) -> grid_is m n g.
Proof.
  intros [Hl Hr] Hfg. split; [done|]. intros r Hlt.
  destruct (Hr r Hlt) as (row & H1 & H2 & H3). exists row.
  split; [done|]. split; [done|]. intros c Hc. rewrite <- Hfg. auto.
Qed.

Lemma row_major_unique (n r c : nat) :
  (c < n)%nat -> ((r * n + c) / n = r /\ (r * n + c) mod n = c)%nat.
Proof.
  intros Hc. split.
  - symmetry. apply (Nat.div_unique _ n r c); lia.
  - symmetry. apply (Nat.mod_unique _ n r c); lia.
Qed.

Lemma coords_nat (k n : nat) : (0 < n)%nat ->
  indexToMatrixCoordinates (Z.of_nat k) (Z.of_nat n) (Z.of_nat n)
  = (Fin (Z.of_nat (k / n)), Fin (Z.of_nat (k mod n))).
Proof.
  intros Hn. unfold indexToMatrixCoordinates, js_floor_div, js_mod.
  destruct (Z.eqb_spec (Z.of_nat n) 0); [lia|].
  rewrite Nat2Z.inj_div, Nat2Z.inj_mod, Z.rem_mod_nonneg; [reflexivity|lia|lia].
Qed.

Lemma js_index_nat (k : nat) : js_index (Fin (Z.of_nat k)) = Some k.
Proof.
  unfold js_index. rewrite (proj2 (Z.leb_le _ _)) by lia. by rewrite Nat2Z.id.
Qed.

Lemma grid_set {A} (m : matrix A) (n : nat) f (k : nat) (v : A) :
  grid_is m n f -> (k < n * n)%nat ->
  exists m', set2 m (Fin (Z.of_nat (k / n))) (Fin (Z.of_nat (k mod n))) v = Some m' /\
             grid_is m' n (fun j => if decide (j = k) then v else f j).
Proof.
  intros [Hlen Hrows] Hk.
  assert (Hn : (0 < n)%nat) by (destruct n; lia).
  assert (Hr : (k / n < n)%nat) by (apply Nat.Div0.div_lt_upper_bound; lia).
  assert (Hc : (k mod n < n)%nat) by (apply Nat.mod_upper_bound; lia).
  assert (Hdm : (k / n * n + k mod n = k)%nat) by (pose proof (Nat.div_mod_eq k n); lia).
  destruct (Hrows _ Hr) as (row & Hrow & Hrowlen & Hcells).
  unfold set2. rewrite !js_index_nat. simpl. rewrite Hrow. simpl.
  destruct (decide (k mod n < length row)%nat) as [_|]; [|lia].
  eexists; split; [reflexivity|]. unfold grid_is.
  split; [by rewrite length_insert|].
  intros r Hr'. destruct (decide (r = k / n)%nat) as [->|Hne].
  - exists (<[(k mod n)%nat := v]> row).
    split; [apply list_lookup_insert_eq; lia|].
    split; [by rewrite length_insert|].
    intros c Hc'. destruct (decide (c = k mod n)%nat) as [->|Hc2].
    + rewrite list_lookup_insert_eq by lia. rewrite Hdm.
      by destruct (decide (k = k)).
    + rewrite list_lookup_insert_ne by lia. rewrite Hcells by lia.
      destruct (decide _) as [E|]; [|reflexivity].
      exfalso. apply Hc2. destruct (row_major_unique n (k / n) c Hc') as [_ Hm].
      rewrite E in Hm. done.
  - rewrite list_lookup_insert_ne by lia.
    destruct (Hrows r Hr') as (row' & H1 & H2 & H3). exists row'.
    split; [done|]. split; [done|]. intros c Hc'. rewrite H3 by done.
    destruct (decide _) as [E|]; [|reflexivity].
    exfalso. apply Hne. destruct (row_major_unique n r c Hc') as [Hd _].
    rewrite E in Hd. done.
Qed.

Lemma nth_snoc_fun {A} (l : list A) (v d : A) (j : nat) :
  (if decide (j = length l) then v else nth j l d) = nth j (l ++ [v]) d.
Proof.
  destruct (decide _) as [->|Hne].
  - rewrite app_nth2, Nat.sub_diag by lia. reflexivity.
  - destruct (Nat.lt_ge_cases j (length l)).
    + rewrite app_nth1 by lia. reflexivity.
    + rewrite app_nth2 by lia. rewrite nth_overflow by lia.
      destruct (j - length l)%nat as [|[|]] eqn:?; simpl; try reflexivity; lia.
Qed.

(** Writing the next cell of a row-major prefix extends the prefix. *)
Lemma grid_snoc {A} (m : matrix A) (n : nat) (l : list A) (d v : A) :
  grid_is m n (fun j => nth j l d) -> (length l < n * n)%nat ->
  exists m', set2 m (Fin (Z.of_nat (length l / n))) (Fin (Z.of_nat (length l mod n))) v
             = Some m' /\ grid_is m' n (fun j => nth j (l ++ [v]) d).
Proof.
  intros Hg Hk. destruct (grid_set m n _ (length l) v Hg Hk) as (m' & Hs & Hg').
  exists m'. split; [done|]. eapply grid_ext; [exact Hg'|].
  intros j. apply nth_snoc_fun.
Qed.

(** * The encoder *)

Lemma storeNeighbours_ok (nodes : list ref) (P : Z) (a : nat) (nbrs : list ref)
    (acc : list (num * num)) (adjM : matrix (num * num)) :
  grid_is adjM a (fun j => nth j acc adjFill) ->
  (length acc + length nbrs <= a * a)%nat ->
  exists adjM',
    storeNeighbours nodes P (Z.of_nat a) nbrs (Z.of_nat (length acc)) adjM
      = Some (Z.of_nat (length acc + length nbrs), adjM') /\
    grid_is adjM' a (fun j => nth j (acc ++ map (fun nb =>
      indexToMatrixCoordinates (indexOf nodes nb) P P) nbrs) adjFill).
Proof.
  revert acc adjM. induction nbrs as [|nb nbrs IH]; intros acc adjM Hg Hlen.
  - exists adjM. cbn [storeNeighbours map]. rewrite Nat.add_0_r, app_nil_r. done.
  - cbn [length] in Hlen. assert (Ha : (0 < a)%nat) by (destruct a; lia).
    cbn [storeNeighbours]. rewrite coords_nat by done.
    set (v := indexToMatrixCoordinates (indexOf nodes nb) P P).
    destruct (grid_snoc adjM a acc adjFill v Hg) as (m1 & Hs & Hg1); [lia|].
    rewrite Hs. cbn [mbind option_bind].
    replace (Z.of_nat (length acc) + 1) with (Z.of_nat (length (acc ++ [v])))
      by (rewrite length_app; cbn [length]; lia).
    destruct (IH _ _ Hg1) as (m2 & Hs2 & Hg2); [rewrite length_app; cbn [length]; lia|].
    exists m2. rewrite Hs2. split.
    + do 3 f_equal. rewrite length_app. cbn [length]. lia.
    + rewrite <- app_assoc in Hg2. exact Hg2.
Qed.

Lemma linksOf_cons h nodes P r rs :
  linksOf h nodes P (r :: rs)
  = map (fun nb => indexToMatrixCoordinates (indexOf nodes nb) P P) (neighbours (h r))
    ++ linksOf h nodes P rs.
Proof. reflexivity. Qed.

Lemma encodeFrom_ok (h : heap) (nodes : list ref) (p a : nat) (todo : list ref)
    (s : EncState) (accN : list (num * num * num)) (accP : list (float * float))
    (accA : list (num * num)) :
  grid_is (enc_nodes s) p (fun j => nth j accN nodeFill) ->
  grid_is (enc_pos s) p (fun j => nth j accP posFill) ->
  grid_is (enc_adj s) a (fun j => nth j accA adjFill) ->
  length accP = length accN ->
  enc_cursor s = Z.of_nat (length accA) ->
  (length accN + length todo <= p * p)%nat ->
  (length accA + length (linksOf h nodes (Z.of_nat p) todo) <= a * a)%nat ->
  exists s',
    encodeFrom h nodes (Z.of_nat p) (Z.of_nat a) (Z.of_nat (length accN)) todo s = Some s' /\
    grid_is (enc_nodes s') p
      (fun j => nth j (accN ++ nodeCells h (Z.of_nat a) (length accA) todo) nodeFill) /\
    grid_is (enc_pos s') p (fun j => nth j (accP ++ posOf h todo) posFill) /\
    grid_is (enc_adj s') a
      (fun j => nth j (accA ++ linksOf h nodes (Z.of_nat p) todo) adjFill) /\
    enc_cursor s' = Z.of_nat (length accA + length (linksOf h nodes (Z.of_nat p) todo)).
Proof.
  revert s accN accP accA.
  induction todo as [|r todo IH]; intros s accN accP accA HN HP HA Hl Hc Hp Ha.
  - exists s. cbn [encodeFrom nodeCells posOf map linksOf flat_map].
    rewrite !app_nil_r, Nat.add_0_r. auto.
  - destruct s as [cur nM aM pM]. cbn [enc_cursor enc_nodes enc_adj enc_pos] in *.
    cbn [length] in Hp. rewrite linksOf_cons, length_app, length_map in Ha.
    assert (Hp0 : (0 < p)%nat) by (destruct p; lia).
    cbn [encodeFrom enc_cursor enc_nodes enc_adj enc_pos]. rewrite Hc.
    destruct (indexToMatrixCoordinates (Z.of_nat (length accA)) (Z.of_nat a) (Z.of_nat a))
      as [adjX adjY] eqn:Hadj.
    rewrite (coords_nat (length accN) p Hp0).
    set (cell := (adjX, adjY, Fin (Z.of_nat (length (neighbours (h r)))))).
    destruct (grid_snoc nM p accN nodeFill cell HN) as (nM1 & Hs1 & HN1); [lia|].
    rewrite Hs1. cbn [mbind option_bind].
    rewrite <- Hl.
    destruct (grid_snoc pM p accP posFill (x (h r), y (h r)) HP) as (pM1 & Hs2 & HP1); [lia|].
    rewrite Hs2. cbn [mbind option_bind].
    destruct (storeNeighbours_ok nodes (Z.of_nat p) a (neighbours (h r)) accA aM HA)
      as (aM1 & Hs3 & HA1); [lia|].
    rewrite Hs3. cbn [mbind option_bind].
    set (lr := map (fun nb => indexToMatrixCoordinates (indexOf nodes nb) (Z.of_nat p) (Z.of_nat p))
                   (neighbours (h r))) in *.
    replace (Z.of_nat (length accP) + 1) with (Z.of_nat (length (accN ++ [cell])))
      by (rewrite length_app; cbn [length]; lia).
    replace (Z.of_nat (length accA + length (neighbours (h r))))
      with (Z.of_nat (length (accA ++ lr))) by (subst lr; rewrite length_app, length_map; lia).
    destruct (IH (mkEncState (Z.of_nat (length (accA ++ lr))) nM1 aM1 pM1)
                 (accN ++ [cell]) (accP ++ [(x (h r), y (h r))]) (accA ++ lr))
      as (s' & Hs' & HN' & HP' & HA' & Hc');
      cbn [enc_cursor enc_nodes enc_adj enc_pos]; auto.
    + rewrite !length_app. cbn [length]. lia.
    + rewrite !length_app. cbn [length]. lia.
    + rewrite !length_app. subst lr. rewrite length_map. lia.
    + exists s'. split; [exact Hs'|].
      rewrite <- !app_assoc in HN', HP', HA'.
      split; [|split; [|split]].
      * eapply grid_ext; [exact HN'|]. intros j. cbn [nodeCells app].
        unfold degree. subst cell lr. rewrite length_app, length_map, Hadj. reflexivity.
      * exact HP'.
      * rewrite linksOf_cons. exact HA'.
      * rewrite Hc', linksOf_cons, !length_app. subst lr. rewrite length_map. f_equal. lia.
Qed.

Lemma sqrt_up_cover (n : nat) :
  (n <= Z.to_nat (Z.sqrt_up (Z.of_nat n)) * Z.to_nat (Z.sqrt_up (Z.of_nat n)))%nat.
Proof.
  pose proof (Z.sqrt_sqrt_up_spec (Z.of_nat n) ltac:(lia)) as [_ H].
  pose proof (Z.sqrt_up_nonneg (Z.of_nat n)).
  apply Nat2Z.inj_le.
  rewrite Nat2Z.inj_mul, Z2Nat.id by lia. exact H.
Qed.

Lemma totalNumberOfEdges_fold (h : heap) (nodes : list ref) (P : Z) (rs : list ref) (z : Z) :
  fold_left Z.add (map (fun r => Z.of_nat (degree h r)) rs) z
  = z + Z.of_nat (length (linksOf h nodes P rs)).
Proof.
  revert z. induction rs as [|r rs IH]; intros z; [cbn; lia|].
  cbn [map fold_left]. rewrite IH, linksOf_cons, length_app, length_map.
  unfold degree. lia.
Qed.

Lemma totalNumberOfEdges_links (h : heap) (nodes : list ref) (P : Z) :
  totalNumberOfEdges h nodes = Z.of_nat (length (linksOf h nodes P nodes)).
Proof. unfold totalNumberOfEdges. rewrite (totalNumberOfEdges_fold h nodes P). lia. Qed.

(** [_createGraphMatrices] never throws, and lays out the three matrices
    row-major: positions and node cells at the node's index, adjacency cells at
    the cursor. *)
Lemma createGraphMatrices_ok (h : heap) (nodes : list ref) :
  let p := Z.to_nat (nodesMatrixSize nodes) in
  let a := Z.to_nat (adjacencyMatrixSize h nodes) in
  exists pm am nm,
    createGraphMatrices h nodes = Some (pm, am, nm) /\
    grid_is pm p (fun j => nth j (posOf h nodes) posFill) /\
    grid_is am a (fun j => nth j (linksOf h nodes (Z.of_nat p) nodes) adjFill) /\
    grid_is nm p (fun j => nth j (nodeCells h (Z.of_nat a) 0 nodes) nodeFill).
Proof.
  intros p a.
  assert (HP : nodesMatrixSize nodes = Z.of_nat p)
    by (subst p; unfold nodesMatrixSize; rewrite Z2Nat.id; [done|apply Z.sqrt_up_nonneg]).
  assert (HA : adjacencyMatrixSize h nodes = Z.of_nat a)
    by (subst a; unfold adjacencyMatrixSize; rewrite Z2Nat.id; [done|apply Z.sqrt_up_nonneg]).
  assert (Hp : (length nodes <= p * p)%nat) by (subst p; apply sqrt_up_cover).
  assert (Ha : (length (linksOf h nodes (Z.of_nat p) nodes) <= a * a)%nat).
  { subst a. unfold adjacencyMatrixSize.
    rewrite (totalNumberOfEdges_links h nodes (Z.of_nat p)). apply sqrt_up_cover. }
  unfold createGraphMatrices. rewrite HP, HA.
  destruct (encodeFrom_ok h nodes p a nodes
              (mkEncState 0 (create3dMatrix (Z.of_nat p) (Z.of_nat p) nodeFill)
                 (create3dMatrix (Z.of_nat a) (Z.of_nat a) adjFill)
                 (create3dMatrix (Z.of_nat p) (Z.of_nat p) posFill)) [] [] [])
    as (s' & Hs & HN & HPos & HAdj & _); cbn [enc_nodes enc_adj enc_pos enc_cursor length].
  - eapply grid_ext; [apply grid_create|]. intros [|j]; reflexivity.
  - eapply grid_ext; [apply grid_create|]. intros [|j]; reflexivity.
  - eapply grid_ext; [apply grid_create|]. intros [|j]; reflexivity.
  - reflexivity.
  - reflexivity.
  - lia.
  - lia.
  - cbn [length] in Hs. change (Z.of_nat 0) with 0 in Hs. cbv zeta. rewrite Hs. cbn [mbind option_bind].
    exists (enc_pos s'), (enc_adj s'), (enc_nodes s'). auto.
Qed.

(** * The write-back loop *)

Lemma foldO_inv {A B} (I : B -> Prop) (f : B -> A -> outcome B) (l : list A) (b : B) :
  I b -> (forall b a, In a l -> I b -> exists b', f b a = Done b' /\ I b') ->
  exists b', foldO f l b = Done b' /\ I b'.
Proof.
  revert b. induction l as [|a l IH]; intros b Hb Hf; [by exists b|].
  destruct (Hf b a (or_introl eq_refl) Hb) as (b1 & E & Hb1).
  cbn [foldO]. rewrite E. apply IH; [done|].
  intros b' a' Hin. apply Hf. by right.
Qed.

Lemma posOf_lookup (h : heap) (nodes : list ref) (i : nat) (r : ref) :
  nodes !! i = Some r -> nth i (posOf h nodes) posFill = (x (h r), y (h r)).
Proof.
  revert i. induction nodes as [|r' nodes IH]; intros i Hi; [done|].
  destruct i as [|i]; cbn in Hi |- *; [by injection Hi as ->|]. by apply IH.
Qed.

Lemma set_xy_same (n : Node) : set_xy n (x n) (y n) = n.
Proof. by destruct n. Qed.

(** Writing back a position matrix that holds each node's own position leaves
    every node as it was. *)
Lemma writeBack_own_positions (h : heap) (nodes : list ref) (pm : matrix (float * float))
    (p : nat) :
  (0 < p)%nat -> grid_is pm p (fun j => nth j (posOf h nodes) posFill) ->
  exists h', writeBack nodes pm h = Done h' /\ forall r, h' r = h r.
Proof.
  intros Hp [Hlen Hrows].
  destruct (Hrows 0%nat Hp) as (row0 & H0 & Hlen0 & _).
  unfold writeBack. rewrite H0, Hlen, Hlen0.
  apply (foldO_inv (fun b : heap => forall r, b r = h r)); [done|].
  intros b row Hin Hb. apply in_seq in Hin.
  apply (foldO_inv (fun b : heap => forall r, b r = h r)); [done|].
  clear b Hb. intros b col Hin' Hb. apply in_seq in Hin'.
  unfold writeBackCell.
  destruct (decide (row * p + col < length nodes)%nat) as [Hlt|]; [|by exists b].
  destruct (lookup_lt_is_Some_2 nodes (row * p + col)%nat Hlt) as [node Hnode].
  destruct (Hrows row ltac:(lia)) as (rw & Hrw & _ & Hcells).
  unfold get2. rewrite Hnode, Hrw. cbn [mbind option_bind].
  rewrite (Hcells col ltac:(lia)), (posOf_lookup h nodes _ node Hnode).
  eexists; split; [reflexivity|].
  intros r. unfold hupd. destruct (Nat.eqb_spec r node) as [->|]; [|apply Hb].
  rewrite Hb. apply set_xy_same.
Qed.

(** * Layout of the encoding *)

Lemma get2_grid {A} (m : matrix A) (n : nat) f (k : nat) :
  grid_is m n f -> (k < n * n)%nat -> get2 m (k / n) (k mod n) = Some (f k).
Proof.
  intros [_ Hrows] Hk.
  assert (Hn : (0 < n)%nat) by (destruct n; lia).
  assert (Hr : (k / n < n)%nat) by (apply Nat.Div0.div_lt_upper_bound; lia).
  assert (Hc : (k mod n < n)%nat) by (apply Nat.mod_upper_bound; lia).
  destruct (Hrows _ Hr) as (row & Hrow & _ & Hcells).
  unfold get2. rewrite Hrow. cbn [mbind option_bind]. rewrite Hcells by done.
  do 2 f_equal. pose proof (Nat.div_mod_eq k n). lia.
Qed.

Lemma lookup_map_Some {A B} (f : A -> B) (l : list A) (t : nat) (v : A) :
  l !! t = Some v -> map f l !! t = Some (f v).
Proof.
  revert t. induction l as [|a l IH]; intros [|t] Ht; cbn in Ht |- *; try done.
  - by injection Ht as ->.
  - by apply IH.
Qed.

Lemma length_linksOf (h : heap) (nodes : list ref) (P : Z) (rs : list ref) :
  length (linksOf h nodes P rs) = degreeSum h rs.
Proof.
  induction rs as [|r rs IH]; [done|].
  rewrite linksOf_cons, length_app, length_map, IH. reflexivity.
Qed.

Lemma nodeCells_lookup (h : heap) (A : Z) (base : nat) (rs : list ref) (i : nat) (r : ref) :
  rs !! i = Some r ->
  nodeCells h A base rs !! i
  = Some (indexToMatrixCoordinates (Z.of_nat (base + degreeSum h (take i rs))) A A,
          Fin (Z.of_nat (degree h r))).
Proof.
  revert base i. induction rs as [|r' rs IH]; intros base i Hi; [done|].
  destruct i as [|i]; cbn in Hi.
  - injection Hi as ->. cbn. rewrite Nat.add_0_r. reflexivity.
  - cbn [nodeCells lookup list_lookup]. rewrite (IH _ _ Hi).
    cbn [take degreeSum]. do 4 f_equal. lia.
Qed.

Lemma linksOf_lookup (h : heap) (nodes : list ref) (P : Z) (rs : list ref)
    (i t : nat) (r nb : ref) :
  rs !! i = Some r -> neighbours (h r) !! t = Some nb ->
  linksOf h nodes P rs !! (degreeSum h (take i rs) + t)%nat
  = Some (indexToMatrixCoordinates (indexOf nodes nb) P P).
Proof.
  revert i. induction rs as [|r' rs IH]; intros i Hi Ht; [done|].
  rewrite linksOf_cons. destruct i as [|i]; cbn in Hi.
  - injection Hi as ->. cbn [take degreeSum]. rewrite Nat.add_0_l.
    apply lookup_app_l_Some.
    by apply (lookup_map_Some (fun nb => indexToMatrixCoordinates (indexOf nodes nb) P P)).
  - cbn [take degreeSum]. rewrite lookup_app_r by (rewrite length_map; unfold degree; lia).
    rewrite length_map. replace (degree h r' + degreeSum h (take i rs) + t
                                 - length (neighbours (h r')))%nat
      with (degreeSum h (take i rs) + t)%nat by (unfold degree; lia).
    by apply IH.
Qed.

Lemma degreeSum_take_le (h : heap) (rs : list ref) (i : nat) (r : ref) :
  rs !! i = Some r -> (degreeSum h (take i rs) + degree h r <= degreeSum h rs)%nat.
Proof.
  revert i. induction rs as [|r' rs IH]; intros i Hi; [done|].
  destruct i as [|i]; cbn in Hi |- *.
  - injection Hi as ->. lia.
  - specialize (IH i Hi). lia.
Qed.

Lemma indexOf_In (nodes : list ref) (nb : ref) :
  In nb nodes -> exists j, indexOf nodes nb = Z.of_nat j /\ nodes !! j = Some nb.
Proof.
  induction nodes as [|r nodes IH]; intros Hin; [done|].
  cbn [indexOf]. destruct (Nat.eqb_spec r nb) as [->|Hne].
  - by exists 0%nat.
  - destruct Hin as [->|Hin]; [done|].
    destruct (IH Hin) as (j & Hj & Hl). rewrite Hj.
    destruct (Z.eqb_spec (Z.of_nat j) (-1)); [lia|].
    exists (S j). split; [lia|done].
Qed.

Lemma map_seq_eq {B C} (g : nat -> B) (f : C -> B) (l : list C) (s : nat) :
  (forall t v, l !! t = Some v -> g (s + t)%nat = f v) ->
  map g (seq s (length l)) = map f l.
Proof.
  revert s. induction l as [|c l IH]; intros s H; [done|].
  cbn [length seq map]. f_equal.
  - rewrite <- (H 0%nat c) by done. f_equal. lia.
  - apply IH. intros t v Ht. rewrite <- (H (S t) v) by done. f_equal. lia.
Qed.

Lemma nodes_cover (nodes : list ref) :
  (length nodes <= Z.to_nat (nodesMatrixSize nodes) * Z.to_nat (nodesMatrixSize nodes))%nat.
Proof. apply sqrt_up_cover. Qed.

Lemma links_cover (h : heap) (nodes : list ref) :
  (degreeSum h nodes
   <= Z.to_nat (adjacencyMatrixSize h nodes) * Z.to_nat (adjacencyMatrixSize h nodes))%nat.
Proof.
  unfold adjacencyMatrixSize. rewrite (totalNumberOfEdges_links h nodes 0).
  rewrite <- (length_linksOf h nodes 0). apply sqrt_up_cover.
Qed.

(** * The claims on the encoding *)

(** C3: for every non-empty graph, encoding the graph ([_createGraphMatrices])
    and writing the position matrix back onto the nodes (the write-back loop of
    [computeNextPositions]) without changing it in between leaves every node
    exactly as it was, in particular its (x, y).  (With no node at all the
    write-back loop throws on [positions[0].length]; see C7.) *)
Theorem encode_decode_roundtrip (h : heap) (nodes : list ref) :
  nodes <> [] ->
  exists pm am nm h',
    createGraphMatrices h nodes = Some (pm, am, nm) /\
    writeBack nodes pm h = Done h' /\
    forall r, h' r = h r.
Proof.
  intros Hne.
  destruct (createGraphMatrices_ok h nodes) as (pm & am & nm & Hc & Hp & _ & _).
  pose proof (nodes_cover nodes) as Hcov.
  assert (Hp0 : (0 < Z.to_nat (nodesMatrixSize nodes))%nat).
  { destruct nodes; [done|]. cbn [length] in Hcov. nia. }
  destruct (writeBack_own_positions h nodes pm _ Hp0 Hp) as (h' & Hw & Hid).
  exists pm, am, nm, h'. auto.
Qed.

Lemma encode_decode_roundtrip_witness :
  tri_nodes <> [] /\
  exists pm am nm h',
    createGraphMatrices tri_heap tri_nodes = Some (pm, am, nm) /\
    writeBack tri_nodes pm tri_heap = Done h' /\
    forall r, h' r = tri_heap r.
Proof. split; [discriminate | apply encode_decode_roundtrip; discriminate]. Defined.

(** C4: after encoding, the node-matrix cell of every node records its true
    neighbour count; the adjacency cursor gives node [i] the run of cells
    starting at the sum of the degrees of the nodes before it (so the next node's
    run starts right after it), each of its neighbour links occupies one cell of
    that run, the sum of all degrees is [totalNumberOfEdges], and every cell past
    that prefix keeps the fill value. *)
Theorem encode_degree_accounting (h : heap) (nodes : list ref) :
  let p := Z.to_nat (nodesMatrixSize nodes) in
  let a := Z.to_nat (adjacencyMatrixSize h nodes) in
  exists pm am nm,
    createGraphMatrices h nodes = Some (pm, am, nm) /\
    totalNumberOfEdges h nodes = Z.of_nat (degreeSum h nodes) /\
    (forall i r, nodes !! i = Some r ->
       let start := degreeSum h (take i nodes) in
       get2 nm (i / p) (i mod p)
         = Some (indexToMatrixCoordinates (Z.of_nat start) (Z.of_nat a) (Z.of_nat a),
                 Fin (Z.of_nat (length (neighbours (h r))))) /\
       degreeSum h (take (S i) nodes) = (start + length (neighbours (h r)))%nat /\
       (forall t nb, neighbours (h r) !! t = Some nb ->
          get2 am ((start + t) / a) ((start + t) mod a)
            = Some (indexToMatrixCoordinates (indexOf nodes nb) (Z.of_nat p) (Z.of_nat p)))) /\
    (forall k, (degreeSum h nodes <= k < a * a)%nat ->
       get2 am (k / a) (k mod a) = Some adjFill).
Proof.
  intros p a.
  destruct (createGraphMatrices_ok h nodes) as (pm & am & nm & Hc & _ & Ha & Hn).
  pose proof (nodes_cover nodes) as Hpc. pose proof (links_cover h nodes) as Hac.
  fold p in Hpc. fold a in Hac.
  exists pm, am, nm. split; [done|]. split.
  { rewrite (totalNumberOfEdges_links h nodes 0), length_linksOf. reflexivity. }
  split.
  - intros i r Hi start.
    pose proof (lookup_lt_Some _ _ _ Hi) as Hlt.
    split; [|split].
    + rewrite (get2_grid nm p _ i Hn) by lia.
      f_equal. apply nth_lookup_Some. by rewrite (nodeCells_lookup h _ 0 nodes i r Hi).
    + subst start. rewrite (take_S_r nodes i r Hi).
      clear. induction (take i nodes) as [|r' l IH]; cbn; [unfold degree; lia|].
      rewrite IH. lia.
    + intros t nb Ht.
      pose proof (lookup_lt_Some _ _ _ Ht) as Htl.
      pose proof (degreeSum_take_le h nodes i r Hi) as Hle. unfold degree in Hle.
      rewrite (get2_grid am a _ (start + t) Ha) by lia.
      f_equal. apply nth_lookup_Some. subst start. by apply linksOf_lookup with r.
  - intros k Hk. rewrite (get2_grid am a _ k Ha) by lia.
    f_equal. apply nth_overflow. rewrite length_linksOf. lia.
Qed.

(** C8: with [P = ceil(sqrt N)], node [i] sits at [(floor(i / P), i mod P)] in
    the position matrix and in the node matrix; reading, from the recorded
    [(adjRow, adjCol)], [degree] consecutive row-major cells of the adjacency
    matrix returns the matrix coordinates of the node's neighbours in order,
    and the coordinates of a neighbour that is in [graph.nodes] lead back to it. *)
Theorem encode_coordinates_and_runs (h : heap) (nodes : list ref) :
  let p := Z.to_nat (nodesMatrixSize nodes) in
  let a := Z.to_nat (adjacencyMatrixSize h nodes) in
  exists pm am nm,
    createGraphMatrices h nodes = Some (pm, am, nm) /\
    forall i r, nodes !! i = Some r ->
      get2 pm (i / p) (i mod p) = Some (x (h r), y (h r)) /\
      exists adjRow adjCol,
        get2 nm (i / p) (i mod p)
          = Some (adjRow, adjCol, Fin (Z.of_nat (length (neighbours (h r))))) /\
        readRun am a adjRow adjCol (length (neighbours (h r)))
          = map (fun nb => Some (indexToMatrixCoordinates (indexOf nodes nb)
                                   (Z.of_nat p) (Z.of_nat p))) (neighbours (h r)) /\
        (forall nb, In nb (neighbours (h r)) -> In nb nodes ->
           exists j, nodes !! j = Some nb /\
             indexToMatrixCoordinates (indexOf nodes nb) (Z.of_nat p) (Z.of_nat p)
             = (Fin (Z.of_nat (j / p)), Fin (Z.of_nat (j mod p)))).
Proof.
  intros p a.
  destruct (createGraphMatrices_ok h nodes) as (pm & am & nm & Hc & Hp & Ha & Hn).
  pose proof (nodes_cover nodes) as Hpc. pose proof (links_cover h nodes) as Hac.
  fold p in Hpc. fold a in Hac.
  exists pm, am, nm. split; [done|].
  intros i r Hi. pose proof (lookup_lt_Some _ _ _ Hi) as Hlt.
  set (start := degreeSum h (take i nodes)).
  pose proof (degreeSum_take_le h nodes i r Hi) as Hle. unfold degree in Hle.
  split.
  { rewrite (get2_grid pm p _ i Hp) by lia. f_equal.
    apply nth_lookup_Some. unfold posOf. by apply (lookup_map_Some (fun r => (x (h r), y (h r)))). }
  exists (fst (indexToMatrixCoordinates (Z.of_nat start) (Z.of_nat a) (Z.of_nat a))),
         (snd (indexToMatrixCoordinates (Z.of_nat start) (Z.of_nat a) (Z.of_nat a))).
  split; [|split].
  - rewrite (get2_grid nm p _ i Hn) by lia. f_equal.
    apply nth_lookup_Some. rewrite (nodeCells_lookup h _ 0 nodes i r Hi). reflexivity.
  - unfold readRun. apply map_seq_eq. intros t nb Ht.
    pose proof (lookup_lt_Some _ _ _ Ht) as Htl.
    assert (Ha0 : (0 < a)%nat) by (destruct a; lia).
    rewrite (coords_nat start a Ha0). cbn [fst snd]. rewrite !js_index_nat.
    assert (Hdm : (start / a * a + start mod a = start)%nat)
      by (pose proof (Nat.div_mod_eq start a); lia).
    rewrite Nat.add_0_l, Hdm.
    rewrite (get2_grid am a _ (start + t) Ha) by lia.
    f_equal. apply nth_lookup_Some. subst start. by apply linksOf_lookup with r.
  - intros nb _ Hin. destruct (indexOf_In nodes nb Hin) as (j & Hj & Hl).
    exists j. split; [done|]. rewrite Hj. apply coords_nat.
    pose proof (lookup_lt_Some _ _ _ Hl). nia.
Qed.

(** * The kernel and the write-back loop *)





Lemma set_xy_set_xy (n : Node) a b c d : set_xy (set_xy n a b) c d = set_xy n c d.
Proof. reflexivity. Qed.


Lemma writeBack_done (nodes : list ref) (pm : matrix (float * float)) (p : nat)
    (g : nat -> float * float) (h : heap) :
  (0 < p)%nat -> grid_is pm p g -> exists h', writeBack nodes pm h = Done h'.
Proof.
  intros Hp [Hlen Hrows].
  destruct (Hrows 0%nat Hp) as (row0 & H0 & Hlen0 & _).
  unfold writeBack. rewrite H0, Hlen, Hlen0.
  destruct (foldO_inv (fun _ : heap => True)
              (fun h row => foldO (fun h col => writeBackCell nodes pm p h row col) (seq 0 p) h)
              (seq 0 p) h I) as (h' & E & _); [|by exists h'].
  intros b row Hin _. apply in_seq in Hin.
  destruct (foldO_inv (fun _ : heap => True) (fun h col => writeBackCell nodes pm p h row col)
              (seq 0 p) b I) as (b' & E' & _); [|by exists b'].
  intros b1 col Hin' _. apply in_seq in Hin'. unfold writeBackCell.
  destruct (decide _) as [Hlt|]; [|by exists b1].
  destruct (lookup_lt_is_Some_2 nodes _ Hlt) as [node Hnode]. rewrite Hnode.
  destruct (Hrows row ltac:(lia)) as (rw & Hrw & _ & Hcells).
  unfold get2. rewrite Hrw. cbn [mbind option_bind]. rewrite (Hcells col ltac:(lia)).
  destruct (g _). by eexists.
Qed.


(** [computeNextPositions] always adds 3 to [constants.speed], whether it
    returns or throws. *)
Lemma computeNextPositions_constant (h : heap) (e : Engine) :
  match computeNextPositions h e with
  | Done (_, e') | Throws (_, e') => kernel_speed e' = (kernel_speed e + 3)%float
  end.
Proof.
  unfold computeNextPositions.
  destruct (_ =? 0); [reflexivity|].
  destruct (runKernel _ _ _); [|reflexivity].
  destruct (writeBack _ _ _); reflexivity.
Qed.



(** * The simulation tick (C1, C2) *)

(** C1 (code bug): the kernel computes no force.  A single free node with no
    edge feels no force, so the force law of the specification keeps it at
    [(400, 300)] (whatever the minimum distance); the first tick moves it to
    [(406, 300.100006103515625)], the binary32 roundings of [400 + 6] and
    [300 + 0.1]. *)
Lemma single_node_moves_without_force :
  exists h1 e1 h2 e2,
    newEngine one_heap [0%nat] 800 600 (fun _ => 0.5%float) = Done (h1, e1) /\
    isFixed (h1 0%nat) = false /\ x (h1 0%nat) = 400%float /\ y (h1 0%nat) = 300%float /\
    (forall eps, spec_next_position eps e1 h1 [0%nat] 0%nat = (400%float, 300%float)) /\
    computeNextPositions h1 e1 = Done (h2, e2) /\
    x (h2 0%nat) = 406%float /\ y (h2 0%nat) = 300.100006103515625%float.
Proof.
  do 4 eexists. split; [eval_lhs; reflexivity|].
  split; [vm_compute; reflexivity|]. split; [vm_compute; reflexivity|].
  split; [vm_compute; reflexivity|].
  split; [intros eps; vm_compute; reflexivity|].
  split; [eval_lhs; reflexivity|]. split; vm_compute; reflexivity.
Qed.



(** C2 (code bug): [isFixed] is never read.  After [setGraph] on the triangle
    graph (all nodes at [(400, 300)]), node 2 is marked fixed; the force law
    of the specification leaves a fixed node where it is, but the next tick
    moves it to [(406, 300.100006103515625)] and it stays marked fixed. *)
Lemma fixed_node_moves :
  exists h1 e1 h2 e2,
    newEngine tri_heap tri_nodes 800 600 (fun _ => 0.5%float) = Done (h1, e1) /\
    x (h1 2%nat) = 400%float /\ y (h1 2%nat) = 300%float /\
    (forall eps, spec_next_position eps e1
       (hupd h1 2%nat (mkNode (x (h1 2%nat)) (y (h1 2%nat)) true (neighbours (h1 2%nat))))
       tri_nodes 2%nat = (400%float, 300%float)) /\
    computeNextPositions
      (hupd h1 2%nat (mkNode (x (h1 2%nat)) (y (h1 2%nat)) true (neighbours (h1 2%nat)))) e1
      = Done (h2, e2) /\
    isFixed (h2 2%nat) = true /\ x (h2 2%nat) = 406%float /\
    y (h2 2%nat) = 300.100006103515625%float.
Proof.
  do 4 eexists. split; [eval_lhs; reflexivity|]. split; [reflexivity|]. split; [reflexivity|].
  split; [intros eps; reflexivity|].
  split; [eval_lhs; reflexivity|]. vm_compute. repeat split.
Qed.

(** * [setProperties] (C5, C6) *)

(** Every negative number is truthy in JS. *)
Lemma negative_truthy (v : float) : PrimFloat.ltb v 0 = true -> truthy v = true.
Proof.
  unfold truthy. rewrite FloatAxioms.ltb_spec, !FloatAxioms.eqb_spec.
  change (Prim2SF 0) with (S754_zero false).
  destruct (Prim2SF v) as [s|s| |s m e]; cbn; try discriminate.
  - destruct s; reflexivity.
  - destruct s; [|discriminate]. intros _.
    rewrite Z.compare_refl, Pos.compare_cont_refl. reflexivity.
Qed.

Lemma js_or_falsy (v : option float) (d : float) : falsy_opt v = true -> js_or v d = d.
Proof. destruct v as [f|]; cbn; [by destruct (truthy f)|done]. Qed.

Lemma js_or_taken (v : option float) (d f : float) :
  v = Some f -> truthy f = true -> js_or v d = f.
Proof. intros -> Hf. cbn. by rewrite Hf. Qed.

(** C5 (corrected): [setProperties] validates nothing.  Each of the four
    options independently replaces the current value whenever it is supplied
    and truthy, so every negative value is stored as given, and the call always
    returns; only an absent or falsy option ([undefined], [0], [-0], [NaN])
    keeps the prior value. *)
Theorem setProperties_no_validation (e : Engine) (p : Properties) :
  (forall v, p_speed p = Some v -> truthy v = true -> speed (setProperties e p) = v) /\
  (forall v, p_springRestLength p = Some v -> truthy v = true ->
     springRestLength (setProperties e p) = v) /\
  (forall v, p_springDampening p = Some v -> truthy v = true ->
     springDampening (setProperties e p) = v) /\
  (forall v, p_charge p = Some v -> truthy v = true -> charge (setProperties e p) = v) /\
  (forall v, p_speed p = Some v -> PrimFloat.ltb v 0 = true -> speed (setProperties e p) = v) /\
  (forall v, p_springRestLength p = Some v -> PrimFloat.ltb v 0 = true ->
     springRestLength (setProperties e p) = v) /\
  (falsy_opt (p_speed p) = true -> speed (setProperties e p) = speed e) /\
  (falsy_opt (p_springRestLength p) = true ->
     springRestLength (setProperties e p) = springRestLength e).
Proof.
  cbn [speed springRestLength springDampening charge setProperties].
  split; [intros v Hv Ht; exact (js_or_taken _ _ _ Hv Ht)|].
  split; [intros v Hv Ht; exact (js_or_taken _ _ _ Hv Ht)|].
  split; [intros v Hv Ht; exact (js_or_taken _ _ _ Hv Ht)|].
  split; [intros v Hv Ht; exact (js_or_taken _ _ _ Hv Ht)|].
  split; [intros v Hv Hn; exact (js_or_taken _ _ _ Hv (negative_truthy v Hn))|].
  split; [intros v Hv Hn; exact (js_or_taken _ _ _ Hv (negative_truthy v Hn))|].
  split; apply js_or_falsy.
Qed.

(** C5 counterexample: a negative speed and a negative rest length are
    stored, replacing [0.01] and [10], while the charge of the same call is
    taken too. *)
Lemma negative_speed_and_rest_length_stored :
  speed tri_engine = 0.01%float /\ springRestLength tri_engine = 10%float /\
  speed (setProperties tri_engine (mkProperties (Some (-1)%float) None (Some (-5)%float) (Some 500%float)))
    = (-1)%float /\
  springRestLength (setProperties tri_engine (mkProperties (Some (-1)%float) None (Some (-5)%float) (Some 500%float)))
    = (-5)%float /\
  charge (setProperties tri_engine (mkProperties (Some (-1)%float) None (Some (-5)%float) (Some 500%float)))
    = 500%float.
Proof. vm_compute. repeat split. Qed.

(** C6: [setProperties({charge: 500})] changes the charge to 500 and nothing
    else; more generally every option that is absent or falsy leaves its field
    as it was, and the fields outside the four options are never changed. *)
Theorem setProperties_partial_merge (e : Engine) (p : Properties) :
  setProperties e (mkProperties None None None (Some 500%float)) =
    mkEngine (graph_nodes e) (width e) (height e) (speed e) (springRestLength e)
      (springDampening e) 500 (positionsMatrix e) (adjacencyMatrix e) (nodesMatrix e)
      (kernel_size e) (kernel_speed e) (kernel_built e) /\
  (falsy_opt (p_speed p) = true -> speed (setProperties e p) = speed e) /\
  (falsy_opt (p_springDampening p) = true ->
     springDampening (setProperties e p) = springDampening e) /\
  (falsy_opt (p_springRestLength p) = true ->
     springRestLength (setProperties e p) = springRestLength e) /\
  (falsy_opt (p_charge p) = true -> charge (setProperties e p) = charge e) /\
  graph_nodes (setProperties e p) = graph_nodes e /\ width (setProperties e p) = width e /\
  height (setProperties e p) = height e /\
  positionsMatrix (setProperties e p) = positionsMatrix e /\
  adjacencyMatrix (setProperties e p) = adjacencyMatrix e /\
  nodesMatrix (setProperties e p) = nodesMatrix e /\
  kernel_size (setProperties e p) = kernel_size e /\
  kernel_speed (setProperties e p) = kernel_speed e.
Proof.
  split.
  { unfold setProperties. cbn [p_speed p_springDampening p_springRestLength p_charge].
    rewrite (js_or_taken (Some 500%float) (charge e) 500%float) by (done || vm_compute; reflexivity).
    reflexivity. }
  cbn [speed springRestLength springDampening charge setProperties].
  split; [apply js_or_falsy|]. split; [apply js_or_falsy|].
  split; [apply js_or_falsy|]. split; [apply js_or_falsy|].
  repeat split.
Qed.

(** * The empty graph (C7) *)

(** C7: for the empty graph [setGraph] returns with empty (0 x 0) matrices, a
    kernel of size 0 and constant 3, but the next [computeNextPositions] throws
    (gpu.js refuses to compile a kernel with a 0 x 0 output) after having
    already raised [constants.speed] to 6; the position matrix stays [[]]. *)
Theorem empty_graph_tick_throws (h : heap) (e : Engine) (rand : nat -> float) :
  exists h1 e1,
    setGraph h e [] rand = Done (h1, e1) /\ graph_nodes e1 = [] /\
    positionsMatrix e1 = [] /\ adjacencyMatrix e1 = [] /\ nodesMatrix e1 = [] /\
    kernel_size e1 = 0 /\ kernel_speed e1 = 3%float /\
    computeNextPositions h1 e1 = Throws (h1, with_positions (with_kernel_speed e1 6) []) /\
    kernel_speed (with_positions (with_kernel_speed e1 6) []) <> kernel_speed e1.
Proof.
  do 2 eexists. split; [reflexivity|].
  do 6 (split; [reflexivity|]). split; [reflexivity|].
  cbn. discriminate.
Qed.

(** * [setGraph] (C9) *)

Lemma randomizeNodes_spec (w hg : float) (rand : nat -> float) (rs : list ref) :
  forall k h r,
  (In r rs -> exists k', randomizeNodes w hg rand k rs h r =
     mkNode (w / 2 + 100 * rand k' - 50) (hg / 2 + (100 * rand (S k') - 50)) false
            (neighbours (h r))) /\
  (~ In r rs -> randomizeNodes w hg rand k rs h r = h r).
Proof.
  induction rs as [|r0 rs IH]; intros k h r; cbn [randomizeNodes In]; [split; [done|done]|].
  set (h1 := hupd h r0 _).
  assert (Hn : neighbours (h1 r) = neighbours (h r)).
  { unfold h1, hupd. by destruct (Nat.eqb_spec r r0) as [->|]. }
  destruct (IH (S (S k)) h1 r) as [Hin Hout].
  split.
  - intros Hr. destruct (in_dec Nat.eq_dec r rs) as [Hrs|Hrs].
    + destruct (Hin Hrs) as (k' & E). exists k'. by rewrite E, Hn.
    + destruct Hr as [<-|]; [|done]. exists k. rewrite (Hout Hrs).
      unfold h1, hupd. by rewrite Nat.eqb_refl.
  - intros Hr. rewrite Hout by tauto. unfold h1, hupd.
    destruct (Nat.eqb_spec r r0); [subst; tauto|done].
Qed.

(** What [randomizeNodes] writes depends on the old objects only through their
    neighbour lists. *)
Lemma randomizeNodes_agree (w hg : float) (rand : nat -> float) (rs : list ref) :
  forall k h h', (forall r, neighbours (h r) = neighbours (h' r)) ->
  forall r, In r rs ->
  randomizeNodes w hg rand k rs h r = randomizeNodes w hg rand k rs h' r.
Proof.
  induction rs as [|r0 rs IH]; intros k h h' Hn r Hr; [done|].
  cbn [randomizeNodes].
  set (h1 := hupd h r0 _). set (h1' := hupd h' r0 _).
  assert (Hn1 : forall r, neighbours (h1 r) = neighbours (h1' r)).
  { intros r'. unfold h1, h1', hupd. destruct (Nat.eqb r' r0); cbn; auto. }
  destruct (in_dec Nat.eq_dec r rs) as [Hrs|Hrs]; [by apply IH|].
  destruct Hr as [<-|]; [|done].
  rewrite !(proj2 (randomizeNodes_spec w hg rand rs _ _ r0) Hrs).
  unfold h1, h1', hupd. rewrite Nat.eqb_refl, (Hn r0). reflexivity.
Qed.

Lemma encodeFrom_ext (h h' : heap) (nodes : list ref) (P A : Z) (todo : list ref) :
  (forall r, In r todo -> h r = h' r) ->
  forall i s, encodeFrom h nodes P A i todo s = encodeFrom h' nodes P A i todo s.
Proof.
  induction todo as [|r todo IH]; intros Hh i s; [done|].
  cbn [encodeFrom]. rewrite (Hh r (or_introl eq_refl)).
  destruct (indexToMatrixCoordinates _ _ _), (indexToMatrixCoordinates _ _ _).
  destruct (set2 _ _ _ _); [|done]. cbn [mbind option_bind].
  destruct (set2 _ _ _ _); [|done]. cbn [mbind option_bind].
  destruct (storeNeighbours _ _ _ _ _ _) as [[cur aM]|]; [|done]. cbn [mbind option_bind].
  apply IH. intros r' Hr'. apply Hh. by right.
Qed.

(** [_createGraphMatrices] reads the heap only at the nodes of the graph. *)
Lemma createGraphMatrices_ext (h h' : heap) (nodes : list ref) :
  (forall r, In r nodes -> h r = h' r) ->
  createGraphMatrices h nodes = createGraphMatrices h' nodes.
Proof.
  intros Hh. unfold createGraphMatrices, adjacencyMatrixSize, totalNumberOfEdges.
  replace (map (fun r => Z.of_nat (degree h r)) nodes)
    with (map (fun r => Z.of_nat (degree h' r)) nodes)
    by (apply map_ext_in; intros r Hr; unfold degree; by rewrite (Hh r Hr)).
  by rewrite (encodeFrom_ext h h' nodes _ _ nodes Hh).
Qed.

(** C9 (corrected): [setGraph] always returns; it gives every node of the
    supplied graph [isFixed = false] and the position
    [(w/2 + 100 r - 50, h/2 + (100 r' - 50))] computed in binary64 from two
    successive [Math.random()] values [r = rand k] and [r' = rand (S k)], keeps
    its neighbour list and touches no other object; the prior [x], [y] and
    [isFixed] of the nodes do not survive: a heap that differs from [h] only in
    these fields yields the same nodes and the same engine (encoding
    included). *)
Theorem setGraph_resets_nodes (h : heap) (e : Engine) (nodes : list ref) (rand : nat -> float) :
  exists h1 e1, setGraph h e nodes rand = Done (h1, e1) /\ graph_nodes e1 = nodes /\
    (forall r, In r nodes ->
       isFixed (h1 r) = false /\ neighbours (h1 r) = neighbours (h r) /\
       exists k, x (h1 r) = (width e / 2 + 100 * rand k - 50)%float /\
                 y (h1 r) = (height e / 2 + (100 * rand (S k) - 50))%float) /\
    (forall r, ~ In r nodes -> h1 r = h r) /\
    (forall h', (forall r, neighbours (h' r) = neighbours (h r)) ->
       exists h1', setGraph h' e nodes rand = Done (h1', e1) /\
                   forall r, In r nodes -> h1' r = h1 r).
Proof.
  set (h1 := randomizeNodes (width e) (height e) rand 0 nodes h).
  destruct (createGraphMatrices_ok h1 nodes) as (pm & am & nm & Hc & _).
  unfold setGraph. fold h1. unfold setUpGPU. cbn [graph_nodes]. rewrite Hc.
  do 2 eexists. split; [reflexivity|]. split; [reflexivity|].
  split; [|split].
  - intros r Hr. destruct (proj1 (randomizeNodes_spec (width e) (height e) rand nodes 0 h r) Hr)
      as (k & E). fold h1 in E. rewrite E. cbn. split; [done|]. split; [done|]. by exists k.
  - intros r Hr. exact (proj2 (randomizeNodes_spec (width e) (height e) rand nodes 0 h r) Hr).
  - intros h' Hn. set (h1' := randomizeNodes (width e) (height e) rand 0 nodes h').
    assert (Hag : forall r, In r nodes -> h1' r = h1 r).
    { intros r Hr. symmetry. apply randomizeNodes_agree; [|done]. intros r'. by rewrite Hn. }
    exists h1'. split; [|exact Hag]. fold h1'.
    rewrite (createGraphMatrices_ext h1' h1 nodes Hag), Hc. reflexivity.
Qed.

(** C9 counterexample: on a canvas [2^60] wide, with [Math.random()]
    returning [0.99], the node's [x] lies [128] to the right of the centre
    [2^59]: binary64 rounding takes it out of the [+-50] band. *)
Lemma huge_canvas_leaves_band :
  exists h1 e1,
    newEngine one_heap [0%nat] 1152921504606846976 600 (fun _ => 0.99%float) = Done (h1, e1) /\
    (width e1 / 2)%float = 576460752303423488%float /\
    x (h1 0%nat) = 576460752303423616%float /\
    (x (h1 0%nat) - width e1 / 2)%float = 128%float.
Proof.
  do 2 eexists. split; [reflexivity|]. vm_compute. repeat split.
Qed.

(** * [_speed] and the kernel constant (C10) *)

Lemma ticks_constant (n : nat) : forall (h : heap) (e : Engine) h' e',
  ticks n h e = Done (h', e') -> kernel_speed e' = add3 n (kernel_speed e).
Proof.
  induction n as [|n IH]; intros h e h' e' E; cbn in E |- *; [by injection E as <- <-|].
  pose proof (computeNextPositions_constant h e) as Hc.
  destruct (computeNextPositions h e) as [[h1 e1]|[h1 e1]]; [|done].
  rewrite <- Hc. exact (IH _ _ _ _ E).
Qed.





(** * Further properties of the class *)

(** ** [_create3dMatrix] *)

Lemma map_const_replicate {B C} (c : C) (l : list B) :
  map (fun _ => c) l = replicate (length l) c.
Proof. induction l as [|b l IH]; [done|]. cbn. by rewrite IH. Qed.

Lemma flat_map_const1 {B C} (c : C) (l : list B) :
  flat_map (fun _ => [c]) l = replicate (length l) c.
Proof. induction l as [|b l IH]; [done|]. cbn. by rewrite IH. Qed.

(** [_create3dMatrix(rows, columns, depth, v)] builds [rows] rows of
    [columns] cells, each a fresh array of [depth] copies of [v] when
    [depth > 1] and [v] itself when [depth == 1]; with [depth < 1] every row is
    empty, and with [rows <= 0] there is no row. *)
Theorem create3dMatrix_depth_shape {A} (rows columns depth : Z) (v : A) :
  (1 < depth -> create3dMatrix_depth rows columns depth v
                = create3dMatrix rows columns (JArray (replicate (Z.to_nat depth) v))) /\
  (depth = 1 -> create3dMatrix_depth rows columns depth v
                = create3dMatrix rows columns (JScalar v)) /\
  (depth < 1 -> create3dMatrix_depth rows columns depth v = replicate (Z.to_nat rows) []) /\
  (rows <= 0 -> create3dMatrix_depth rows columns depth v = []).
Proof.
  unfold create3dMatrix_depth, create3dMatrix.
  split; [|split; [|split]].
  - intros Hd. destruct (Z.eqb_spec depth 1) as [|_]; [lia|].
    destruct (Z.ltb_spec 1 depth) as [_|]; [|lia].
    rewrite flat_map_const1, length_seq, map_const_replicate, length_seq. reflexivity.
  - intros ->. rewrite Z.eqb_refl, flat_map_const1, length_seq, map_const_replicate, length_seq.
    reflexivity.
  - intros Hd. destruct (Z.eqb_spec depth 1) as [|_]; [lia|].
    destruct (Z.ltb_spec 1 depth) as [|_]; [lia|].
    replace (flat_map (fun _ : nat => @nil (jsval A)) (seq 0 (Z.to_nat columns))) with (@nil (jsval A))
      by (induction (seq 0 (Z.to_nat columns)); cbn; auto).
    rewrite map_const_replicate, length_seq. reflexivity.
  - intros Hr. replace (Z.to_nat rows) with 0%nat by lia. reflexivity.
Qed.

(** ** Edge cases of [_createGraphMatrices] *)

Lemma indexOf_notIn (nodes : list ref) (nb : ref) : ~ In nb nodes -> indexOf nodes nb = -1.
Proof.
  induction nodes as [|r nodes IH]; intros Hn; [done|]. cbn [indexOf].
  destruct (Nat.eqb_spec r nb) as [->|]; [exfalso; apply Hn; by left|].
  rewrite IH by (intros Hi; apply Hn; by right). reflexivity.
Qed.

Lemma coords_minus_one (P : Z) :
  0 < P -> indexToMatrixCoordinates (-1) P P = (Fin (-1), Fin (if P =? 1 then 0 else -1)).
Proof.
  intros HP. unfold indexToMatrixCoordinates, js_floor_div, js_mod.
  destruct (Z.eqb_spec P 0); [lia|].
  replace (-1 / P) with (-1) by (apply Z.div_unique with (P - 1); lia).
  destruct (Z.eqb_spec P 1) as [->|]; [reflexivity|].
  assert (E : Z.rem (-1) P = -1).
  { change (-1) with (Z.opp 1) at 1. rewrite Z.rem_opp_l', Z.rem_small; lia. }
  rewrite E. reflexivity.
Qed.

(** A neighbour that is not in [graph.nodes] ([indexOf] gives [-1]) is
    encoded in its adjacency cell as [[-1, -1]], the fill value of an unused
    cell, when [P >= 2]; and as [[-1, -0]] when the graph has a single node. *)
Theorem dangling_neighbour_cell (h : heap) (nodes : list ref) (i t : nat) (r nb : ref) :
  nodes !! i = Some r -> neighbours (h r) !! t = Some nb -> ~ In nb nodes ->
  exists pm am nm, createGraphMatrices h nodes = Some (pm, am, nm) /\
    let p := Z.to_nat (nodesMatrixSize nodes) in
    let a := Z.to_nat (adjacencyMatrixSize h nodes) in
    let k := (degreeSum h (take i nodes) + t)%nat in
    ((2 <= p)%nat -> get2 am (k / a) (k mod a) = Some adjFill) /\
    (p = 1%nat -> get2 am (k / a) (k mod a) = Some (Fin (-1), Fin 0)).
Proof.
  intros Hi Ht Hnb.
  pose proof (createGraphMatrices_ok h nodes) as Hok. cbv zeta in Hok.
  destruct Hok as (pm & am & nm & Hc & _ & Ha & _).
  exists pm, am, nm. split; [done|]. cbv zeta.
  set (p := Z.to_nat (nodesMatrixSize nodes)) in *.
  set (a := Z.to_nat (adjacencyMatrixSize h nodes)) in *.
  pose proof (links_cover h nodes) as Hac. fold a in Hac.
  pose proof (degreeSum_take_le h nodes i r Hi) as Hle. unfold degree in Hle.
  pose proof (lookup_lt_Some _ _ _ Ht) as Htl.
  pose proof (lookup_lt_Some _ _ _ Hi) as Hil.
  pose proof (nodes_cover nodes) as Hpc. fold p in Hpc.
  assert (Hp : (0 < p)%nat) by (destruct p; lia).
  rewrite (get2_grid am a _ _ Ha) by lia.
  erewrite nth_lookup_Some by (apply (linksOf_lookup h nodes _ nodes i t r nb Hi Ht)).
  rewrite indexOf_notIn by done. rewrite coords_minus_one by lia.
  split; intros Hp'.
  - destruct (Z.eqb_spec (Z.of_nat p) 1); [lia|reflexivity].
  - rewrite Hp'. reflexivity.
Qed.

Lemma dangling_neighbour_cell_witness :
  ([0%nat; 1%nat] !! 0%nat = Some 0%nat /\ neighbours (dangle_heap 0%nat) !! 1%nat = Some 5%nat /\
   ~ In 5%nat [0%nat; 1%nat]) /\
  exists pm am nm, createGraphMatrices dangle_heap [0%nat; 1%nat] = Some (pm, am, nm) /\
    let p := Z.to_nat (nodesMatrixSize [0%nat; 1%nat]) in
    let a := Z.to_nat (adjacencyMatrixSize dangle_heap [0%nat; 1%nat]) in
    let k := (degreeSum dangle_heap (take 0 [0%nat; 1%nat]) + 1)%nat in
    ((2 <= p)%nat -> get2 am (k / a) (k mod a) = Some adjFill) /\
    (p = 1%nat -> get2 am (k / a) (k mod a) = Some (Fin (-1), Fin 0)).
Proof.
  assert (Hn : ~ In 5%nat [0%nat; 1%nat]) by (cbn; lia).
  split; [split; [reflexivity | split; [reflexivity | exact Hn]]|].
  apply (dangling_neighbour_cell dangle_heap [0%nat; 1%nat] 0%nat 1%nat 0%nat 5%nat); [reflexivity | reflexivity | exact Hn].
Defined.

(** In a graph where no node has a neighbour, the adjacency matrix is empty
    ([A = 0]) and [_indexToMatrixCoordinates(0, 0, 0)] records the start of
    every node's run as [[NaN, NaN]]: the node-matrix cell of every node is
    [[NaN, NaN, 0]]. *)
Theorem edgeless_graph_cells (h : heap) (nodes : list ref) :
  (forall r, In r nodes -> neighbours (h r) = []) ->
  exists pm nm, createGraphMatrices h nodes = Some (pm, [], nm) /\
    let p := Z.to_nat (nodesMatrixSize nodes) in
    forall i, (i < length nodes)%nat -> get2 nm (i / p) (i mod p) = Some (NaN, NaN, Fin 0).
Proof.
  intros Hnb.
  assert (Hd : forall rs, (forall r, In r rs -> neighbours (h r) = []) -> degreeSum h rs = 0%nat).
  { induction rs as [|r rs IH]; intros H; [done|]. cbn. unfold degree.
    rewrite (H r (or_introl eq_refl)), IH; [done|]. intros r' Hr'. apply H. by right. }
  assert (HA : adjacencyMatrixSize h nodes = 0).
  { unfold adjacencyMatrixSize. rewrite (totalNumberOfEdges_links h nodes 0), length_linksOf, Hd by done.
    reflexivity. }
  pose proof (createGraphMatrices_ok h nodes) as Hok. cbv zeta in Hok. rewrite HA in Hok.
  destruct Hok as (pm & am & nm & Hc & _ & [Hal _] & Hn).
  destruct am; [|discriminate].
  exists pm, nm. split; [done|]. cbv zeta. intros i Hi.
  pose proof (nodes_cover nodes) as Hpc.
  destruct (lookup_lt_is_Some_2 nodes i Hi) as [r Hr].
  rewrite (get2_grid nm _ _ i Hn) by lia.
  erewrite nth_lookup_Some by (apply (nodeCells_lookup h _ 0 nodes i r Hr)).
  pose proof (degreeSum_take_le h nodes i r Hr) as Hle. rewrite (Hd nodes Hnb) in Hle.
  replace (degreeSum h (take i nodes)) with 0%nat by lia.
  replace (degree h r) with 0%nat by lia. reflexivity.
Qed.

Lemma edgeless_graph_cells_witness :
  (forall r, In r [0%nat; 1%nat; 2%nat] -> neighbours (one_heap r) = []) /\
  exists pm nm, createGraphMatrices one_heap [0%nat; 1%nat; 2%nat] = Some (pm, [], nm) /\
    let p := Z.to_nat (nodesMatrixSize [0%nat; 1%nat; 2%nat]) in
    forall i, (i < length [0%nat; 1%nat; 2%nat])%nat -> get2 nm (i / p) (i mod p) = Some (NaN, NaN, Fin 0).
Proof.
  assert (H : forall r, In r [0%nat; 1%nat; 2%nat] -> neighbours (one_heap r) = [])
    by (intros r _; reflexivity).
  split; [exact H | exact (edgeless_graph_cells one_heap [0%nat; 1%nat; 2%nat] H)].
Defined.

(** ** What the simulation never reads *)

Section NonInterference.

(** An update of the engine that leaves the graph, the position matrix and
    the kernel alone. *)
Variable F : Engine -> Engine.
Hypothesis F_nodes : forall e, graph_nodes (F e) = graph_nodes e.
Hypothesis F_pos : forall e, positionsMatrix (F e) = positionsMatrix e.
Hypothesis F_size : forall e, kernel_size (F e) = kernel_size e.
Hypothesis F_const : forall e, kernel_speed (F e) = kernel_speed e.
Hypothesis F_ks : forall e c, F (with_kernel_speed e c) = with_kernel_speed (F e) c.
Hypothesis F_wp : forall e pm, F (with_positions e pm) = with_positions (F e) pm.
Hypothesis F_built : forall e, kernel_built (F e) = kernel_built e.
Hypothesis F_kb : forall e b, F (with_kernel_built e b) = with_kernel_built (F e) b.

Lemma tick_commutes (h : heap) (e : Engine) :
  computeNextPositions h (F e)
  = outcome_map (fun '(h', e') => (h', F e')) (computeNextPositions h e).
Proof.
  unfold computeNextPositions. rewrite F_const, <- F_ks, F_size.
  destruct (_ =? 0); [reflexivity|].
  rewrite F_built, F_const, <- F_kb, F_size, F_pos.
  destruct (runKernel _ _ _); [|reflexivity]. cbn [outcome_map].
  rewrite <- F_wp, F_nodes. destruct (writeBack _ _ _); reflexivity.
Qed.

Lemma ticks_commute (n : nat) : forall (h : heap) (e : Engine),
  ticks n h (F e) = outcome_map (fun '(h', e') => (h', F e')) (ticks n h e).
Proof.
  induction n as [|n IH]; intros h e; [reflexivity|].
  cbn [ticks]. rewrite tick_commutes.
  destruct (computeNextPositions h e) as [[h1 e1]|[h1 e1]]; cbn; [apply IH|reflexivity].
Qed.

End NonInterference.

(** [onCanvasSizeChanged] never moves a node: any number of ticks after a
    resize give the same nodes and position matrix as without it, and throw
    alike; only [_width] and [_height] differ, for the next [setGraph]. *)
Theorem resize_never_moves_nodes (n : nat) (h : heap) (e : Engine) (w hg : float) :
  ticks n h (onCanvasSizeChanged e w hg)
  = outcome_map (fun '(h', e') => (h', onCanvasSizeChanged e' w hg)) (ticks n h e).
Proof. apply (ticks_commute (fun e => onCanvasSizeChanged e w hg)); reflexivity. Qed.

(** None of the four settings of [setProperties] (speed, spring rest length,
    spring dampening, charge) has any effect on the simulation: any number of
    ticks after a [setProperties] call give the same nodes and position matrix
    as without it, and throw alike. *)
Theorem setProperties_never_moves_nodes (n : nat) (h : heap) (e : Engine) (p : Properties) :
  ticks n h (setProperties e p)
  = outcome_map (fun '(h', e') => (h', setProperties e' p)) (ticks n h e).
Proof. apply (ticks_commute (fun e => setProperties e p)); reflexivity. Qed.

(** [setGraph] keeps the settings: the canvas size, speed, rest length,
    dampening and charge are those of the engine before the call, and the
    kernel is sized by [P = ceil(sqrt N)] with its constant back at 3. *)
Theorem setGraph_keeps_settings (h : heap) (e : Engine) (nodes : list ref) (rand : nat -> float) :
  exists h1 e1, setGraph h e nodes rand = Done (h1, e1) /\
    graph_nodes e1 = nodes /\ width e1 = width e /\ height e1 = height e /\
    speed e1 = speed e /\ springRestLength e1 = springRestLength e /\
    springDampening e1 = springDampening e /\ charge e1 = charge e /\
    kernel_size e1 = nodesMatrixSize nodes /\ kernel_speed e1 = 3%float.
Proof.
  set (h1 := randomizeNodes (width e) (height e) rand 0 nodes h).
  pose proof (createGraphMatrices_ok h1 nodes) as Hok. cbv zeta in Hok.
  destruct Hok as (pm & am & nm & Hc & _ & _ & [Hlen _]).
  unfold setGraph. fold h1. unfold setUpGPU. cbn [graph_nodes]. rewrite Hc.
  do 2 eexists. split; [reflexivity|]. cbn. do 7 (split; [reflexivity|]).
  split; [|reflexivity]. rewrite Hlen. apply Z2Nat.id, Z.sqrt_up_nonneg.
Qed.

(** ** [_getGpuInstance] *)

Lemma getGpuInstance_calls_set (n : nat) (g m : nat) :
  getGpuInstance_calls n (mkGpuStatic (Some g) m) = (repeat g n, mkGpuStatic (Some g) m).
Proof. induction n as [|n IH]; [reflexivity|]. cbn. by rewrite IH. Qed.

(** Every call of [_getGpuInstance()] returns the same GPU object, and
    [new GPU()] runs at most once: only on the first call, when the static
    field is still [null]. *)
Theorem getGpuInstance_single (n : nat) (s : GpuStatic) :
  getGpuInstance_calls (S n) s
  = match static_gpu s with
    | Some g => (repeat g (S n), s)
    | None => (repeat (gpus_made s) (S n), mkGpuStatic (Some (gpus_made s)) (S (gpus_made s)))
    end.
Proof.
  destruct s as [[g|] m]; cbn [getGpuInstance_calls getGpuInstance static_gpu gpus_made];
    rewrite getGpuInstance_calls_set; reflexivity.
Qed.

(** ** [_clamp] *)

Lemma pos_compare_swap (m1 m2 : positive) :
  Pos.compare_cont Eq m2 m1 = CompOpp (Pos.compare_cont Eq m1 m2).
Proof. rewrite (Pos.compare_cont_antisym m1 m2 Eq). reflexivity. Qed.

Lemma SFcompare_swap (a b : spec_float) :
  SFcompare b a = option_map CompOpp (SFcompare a b).
Proof.
  assert (Hz : forall e1 e2 : Z, (e2 ?= e1)%Z = CompOpp (e1 ?= e2)%Z)
    by (intros; apply Z.compare_antisym).
  destruct a as [sa|sa| |sa ma ea], b as [sb|sb| |sb mb eb];
    try destruct sa; try destruct sb; try reflexivity;
    cbn [SFcompare option_map];
    rewrite (Hz ea eb), (pos_compare_swap ma mb);
    destruct (ea ?= eb)%Z, (Pos.compare_cont Eq ma mb); reflexivity.
Qed.

Lemma SFcompare_self (a : spec_float) :
  SFcompare a a = match a with S754_nan => None | _ => Some Eq end.
Proof.
  destruct a as [s|s| |s m e]; try destruct s; try reflexivity;
    cbn [SFcompare]; rewrite Z.compare_refl, Pos.compare_cont_refl; reflexivity.
Qed.

Lemma SFcompare_some (a b : spec_float) :
  a <> S754_nan -> b <> S754_nan -> SFcompare a b <> None.
Proof.
  destruct a as [sa|sa| |sa ma ea], b as [sb|sb| |sb mb eb]; intros Ha Hb; try done;
    try destruct sa; try destruct sb; discriminate.
Qed.

Lemma SFcompare_nan_r (a : spec_float) : SFcompare a S754_nan = None.
Proof. destruct a; reflexivity. Qed.

Lemma SFcompare_not_nan (a b : spec_float) (o : comparison) :
  SFcompare a b = Some o -> a <> S754_nan /\ b <> S754_nan.
Proof. intros H; split; intros ->; [discriminate | by rewrite SFcompare_nan_r in H]. Qed.

Lemma SFcompare_refl (a : spec_float) : a <> S754_nan -> SFcompare a a = Some Eq.
Proof. intros H. rewrite SFcompare_self. by destruct a. Qed.

(** [_clamp(val, min, max)] with [min <= max]: a NaN [val] is returned as
    is (both comparisons are false); any other [val] comes back within
    [[min, max]], and unchanged when it already lies there. *)
Theorem clamp_spec (v mn mx : float) : (mn <=? mx)%float = true ->
  ((v =? v)%float = false -> clamp v mn mx = v) /\
  ((v =? v)%float = true ->
     (mn <=? clamp v mn mx)%float = true /\ (clamp v mn mx <=? mx)%float = true) /\
  ((mn <=? v)%float = true -> (v <=? mx)%float = true -> clamp v mn mx = v).
Proof.
  intros Hle. unfold clamp. rewrite !FloatAxioms.ltb_spec, FloatAxioms.eqb_spec.
  rewrite FloatAxioms.leb_spec in Hle.
  pose proof (SFcompare_swap (Prim2SF v) (Prim2SF mn)) as S1.
  pose proof (SFcompare_swap (Prim2SF mx) (Prim2SF v)) as S2.
  assert (Hd : {Prim2SF v = S754_nan} + {Prim2SF v <> S754_nan})
    by (destruct (Prim2SF v); [right|right|left|right]; congruence).
  unfold SFltb, SFleb, SFeqb in *.
  destruct (SFcompare (Prim2SF mn) (Prim2SF mx)) as [[| |]|] eqn:Emm; try discriminate;
    destruct (SFcompare_not_nan _ _ _ Emm) as [Hmn Hmx];
    (destruct Hd as [Hv|Hv];
     [ rewrite Hv; rewrite ?SFcompare_nan_r; cbn [SFcompare];
       split; [reflexivity|]; split; intros H;
       [ discriminate | rewrite FloatAxioms.leb_spec, Hv in H; unfold SFleb in H;
         rewrite SFcompare_nan_r in H; discriminate ]
     | ]).
  all: rewrite (SFcompare_refl _ Hv).
  all: destruct (SFcompare (Prim2SF v) (Prim2SF mn)) as [[| |]|] eqn:E1;
    [| | | exfalso; exact (SFcompare_some _ _ Hv Hmn E1)].
  all: cbn [option_map CompOpp] in S1.
  all: try (split; [discriminate|]; split; [intros _; rewrite !FloatAxioms.leb_spec; unfold SFleb;
             rewrite (SFcompare_refl _ Hmn), Emm; split; reflexivity
           | intros H; rewrite FloatAxioms.leb_spec in H; unfold SFleb in H; rewrite S1 in H; discriminate]).
  all: destruct (SFcompare (Prim2SF mx) (Prim2SF v)) as [[| |]|] eqn:E2;
    [| | | exfalso; exact (SFcompare_some _ _ Hmx Hv E2)].
  all: cbn [option_map CompOpp] in S2.
  all: split; [discriminate|]; split; [intros _; rewrite !FloatAxioms.leb_spec; unfold SFleb|].
  all: try (rewrite Emm, (SFcompare_refl _ Hmx); split; reflexivity).
  all: try (rewrite S1, S2; split; reflexivity).
  all: try (intros _ H; rewrite FloatAxioms.leb_spec in H; unfold SFleb in H; rewrite S2 in H; discriminate).
  all: try (intros; reflexivity).
Qed.

Lemma clamp_spec_witness :
  (0 <=? 1)%float = true /\
  (((5 =? 5)%float = false -> clamp 5 0 1 = 5%float) /\
   ((5 =? 5)%float = true ->
      (0 <=? clamp 5 0 1)%float = true /\ (clamp 5 0 1 <=? 1)%float = true) /\
   ((0 <=? 5)%float = true -> (5 <=? 1)%float = true -> clamp 5 0 1 = 5%float)).
Proof. split; [reflexivity | exact (clamp_spec 5 0 1 eq_refl)]. Defined.
